(** * The in-memory authors/books store and its GraphQL resolvers

    A shallow embedding of [resolvers.js]: the module-level [data] object
    (two arrays, [authors] and [books]) and the five resolver functions
    [Book.author], [Author.books], [Query.authors], [Query.books] and
    [Mutation.addBook].

    The resolvers read and mutate one shared object, and a JavaScript
    property read on [undefined] throws.  Both effects are kept: a resolver
    is a function from the store to an outcome (a returned value or a thrown
    [TypeError]) and the store it leaves behind. *)

From stdpp Require Import base list strings pretty.

Local Open Scope nat_scope.

(** ** Data model *)

(** [{ id: "1", name: "Chirag Goel", bookIds: ["101", "102"] }] *)
Module Author.
Record t : Type := mk {
  id : string;
  name : string;
  bookIds : list string;
}.

(** [author.bookIds.push(x)]: the object stays the same one, its
    [bookIds] array grows at the end. *)
Definition push_bookId (x : string) (a : t) : t :=
  {| id := id a; name := name a; bookIds := bookIds a ++ [x] |}.
End Author.

(** [{ id: "102", title: "Book 2", publishedYear: 2010, authorId: "1" }];
    [publishedYear] is the schema's nullable [Int]. *)
Module Book.
Record t : Type := mk {
  id : string;
  title : string;
  publishedYear : option Z;
  authorId : string;
}.
End Book.

(** The [args] object of [addBook(title: String!, publishedYear: Int,
    authorId: ID!)]. *)
Module Args.
Record t : Type := mk {
  title : string;
  publishedYear : option Z;
  authorId : string;
}.
End Args.

Global Instance Author_eq_dec : EqDecision Author.t.
Proof. solve_decision. Defined.
Global Instance Book_eq_dec : EqDecision Book.t.
Proof. solve_decision. Defined.

(** The shape of the module-level [data] object.  Each slot of the two
    arrays holds an object of its own (as in the seed; [addBook] only ever
    pushes a fresh object literal), so a reference to a stored object is its
    index in the array. *)
Record Store : Type := mkStore {
  authors : list Author.t;
  books : list Book.t;
}.

(** [const data = { authors: [...], books: [...] }] *)
Definition data : Store :=
  {| authors :=
       [ Author.mk "1" "Chirag Goel" ["101"; "102"];
         Author.mk "2" "Akshay Saini" ["103"] ];
     books :=
       [ Book.mk "101" "Namaste Frontend System Design" (Some 2000%Z) "1";
         Book.mk "102" "Book 2" (Some 2010%Z) "1";
         Book.mk "103" "Book 3" (Some 2020%Z) "2" ] |}.

(** ** Effects *)

(** The only fault the resolvers can raise: reading a property of
    [undefined] or [null]. *)
Inductive js_error : Type := TypeError.

Inductive outcome (A : Type) : Type :=
  | Returned (a : A)
  | Thrown (e : js_error).
Arguments Returned {A} a.
Arguments Thrown {A} e.

Global Instance outcome_ret : MRet outcome := λ A a, Returned a.
Global Instance outcome_bind : MBind outcome := λ A B k m,
  match m with
  | Returned a => k a
  | Thrown e => Thrown e
  end.
Global Instance outcome_fmap : FMap outcome := λ A B f m,
  match m with
  | Returned a => Returned (f a)
  | Thrown e => Thrown e
  end.

(** A resolver runs against the store: it returns or throws, and leaves a
    store behind.  A throw keeps the writes made before it. *)
Definition Resolver (A : Type) : Type := Store → outcome A * Store.

Global Instance Resolver_ret : MRet Resolver := λ A a d, (Returned a, d).
Global Instance Resolver_bind : MBind Resolver := λ A B k m d,
  match m d with
  | (Returned a, d') => k a d'
  | (Thrown e, d') => (Thrown e, d')
  end.

(** Reading a field of [data]. *)
Definition gets {A} (f : Store → A) : Resolver A := λ d, (Returned (f d), d).
(** Mutating [data] in place. *)
Definition modify (f : Store → Store) : Resolver () := λ d, (Returned (), f d).
(** A computation that does not touch the store. *)
Definition lift {A} (m : outcome A) : Resolver A := λ d, (m, d).

(** The value a resolver hands back, and the store afterwards. *)
Definition result {A} (m : Resolver A) (d : Store) : outcome A := (m d).1.
Definition exec {A} (m : Resolver A) (d : Store) : Store := (m d).2.

(** ** JavaScript primitives used by the resolvers *)

(** [o.f] where [o] may be [undefined]: a property read on [undefined]
    throws a TypeError. *)
Definition prop {A B} (o : option A) (f : A → B) : outcome B :=
  match o with
  | Some a => Returned (f a)
  | None => Thrown TypeError
  end.

(** [Array.prototype.find]: the callback runs on the elements in order
    until it answers true; the element found is returned together with its
    index (the reference to the stored object), [None] is [undefined].  On
    an empty array the callback never runs. *)
Fixpoint array_find {A} (p : A → outcome bool) (l : list A)
    : outcome (option (nat * A)) :=
  match l with
  | [] => Returned None
  | x :: l' =>
      b ← p x;
      if b : bool then Returned (Some (0, x))
      else fmap (M:=option) (prod_map S id) <$> array_find p l'
  end.

(** [Array.prototype.filter]: the callback runs on every element in
    order; the elements it accepts are kept, in the array's order. *)
Fixpoint array_filter {A} (p : A → outcome bool) (l : list A)
    : outcome (list A) :=
  match l with
  | [] => Returned []
  | x :: l' =>
      b ← p x;
      rest ← array_filter p l';
      mret (if b : bool then x :: rest else rest)
  end.

(** [Array.prototype.includes] on an array of strings. *)
Definition includes (l : list string) (x : string) : bool :=
  bool_decide (x ∈ l).

(** [Number.prototype.toString] on an array length plus 101: the decimal
    digits (an array length is below 2^32, so the sum is an exact integer
    and prints without exponent). *)
Definition toString (n : nat) : string := pretty n.

(** ** The resolvers

    [parent] and [args] are JavaScript references: [None] is [undefined].
    The declared shape of a call has them present. *)

(** [Book.author: (parent) =>
      data.authors.find((authorDetail) => authorDetail.id === parent.authorId)] *)
Definition Book_author (parent : option Book.t) : Resolver (option Author.t) :=
  data_authors ← gets authors;
  found ← lift (array_find
                  (λ authorDetail,
                     authorId ← prop parent Book.authorId;
                     mret (bool_decide (Author.id authorDetail = authorId)))
                  data_authors);
  mret (snd <$> found).

(** [Author.books: (parent) =>
      data.books.filter((book) => parent.bookIds.includes(book.id))] *)
Definition Author_books (parent : option Author.t) : Resolver (list Book.t) :=
  data_books ← gets books;
  lift (array_filter
          (λ book,
             bookIds ← prop parent Author.bookIds;
             mret (includes bookIds (Book.id book)))
          data_books).

(** [Query.authors: () => data.authors] *)
Definition Query_authors : Resolver (list Author.t) := gets authors.

(** [Query.books: () => data.books] *)
Definition Query_books : Resolver (list Book.t) := gets books.

(** [Mutation.addBook]: builds the [newBook] literal (the id from the
    current length of [data.books], then the three reads of [args]),
    pushes it onto [data.books], looks the author up with
    [data.authors.find((a) => a.id === args.authorId)] and, when one is
    found, pushes the new id onto that object's [bookIds]; returns
    [newBook]. *)
Definition Mutation_addBook (args : option Args.t) : Resolver Book.t :=
  data_books ← gets books;
  let id := toString (length data_books + 101) in
  title ← lift (prop args Args.title);
  publishedYear ← lift (prop args Args.publishedYear);
  authorId ← lift (prop args Args.authorId);
  let newBook := Book.mk id title publishedYear authorId in
  modify (λ d, {| authors := authors d; books := books d ++ [newBook] |});;
  data_authors ← gets authors;
  author ← lift (array_find
                   (λ a,
                      authorId ← prop args Args.authorId;
                      mret (bool_decide (Author.id a = authorId)))
                   data_authors);
  match author with
  | Some (i, _) =>
      modify (λ d, {| authors := alter (Author.push_bookId (Book.id newBook)) i (authors d);
                      books := books d |})
  | None => mret ()
  end;;
  mret newBook.

(** ** The operations as the query engine sees them *)

(** One field resolution handed to the resolver map. *)
Inductive request : Type :=
  | Req_Book_author (parent : option Book.t)
  | Req_Author_books (parent : option Author.t)
  | Req_Query_authors
  | Req_Query_books
  | Req_Mutation_addBook (args : option Args.t).

Inductive response : Type :=
  | Resp_author (a : option Author.t)
  | Resp_books (bs : list Book.t)
  | Resp_authors (l : list Author.t)
  | Resp_book (b : Book.t).

(** Dispatch on [resolvers[type][field]]. *)
Definition resolve (r : request) : Resolver response :=
  match r with
  | Req_Book_author parent => a ← Book_author parent; mret (Resp_author a)
  | Req_Author_books parent => bs ← Author_books parent; mret (Resp_books bs)
  | Req_Query_authors => l ← Query_authors; mret (Resp_authors l)
  | Req_Query_books => bs ← Query_books; mret (Resp_books bs)
  | Req_Mutation_addBook args => b ← Mutation_addBook args; mret (Resp_book b)
  end.

(** The declared argument shapes of the schema: a [Book] parent for
    [Book.author], an [Author] parent for [Author.books], an argument
    object with [title], [publishedYear] and [authorId] for [addBook]. *)
Definition declared_shape (r : request) : Prop :=
  match r with
  | Req_Book_author parent => is_Some parent
  | Req_Author_books parent => is_Some parent
  | Req_Query_authors | Req_Query_books => True
  | Req_Mutation_addBook args => is_Some args
  end.

(** A client issuing [addBook] mutations one after the other; every call
    is a request of its own, so a call that throws does not stop the next
    one.  The outcomes come back in call order. *)
Fixpoint addBooks (calls : list (option Args.t)) (d : Store)
    : list (outcome Book.t) * Store :=
  match calls with
  | [] => ([], d)
  | args :: calls' =>
      let '(r, d') := Mutation_addBook args d in
      let '(rs, d'') := addBooks calls' d' in
      (r :: rs, d'')
  end.

(** The values of the calls that returned, in order. *)
Definition returned {A} (rs : list (outcome A)) : list A :=
  omap (λ r, match r with Returned a => Some a | Thrown _ => None end) rs.

(** The book that [addBook] builds in store [d] from [args]. *)
Definition newBook_of (d : Store) (args : Args.t) : Book.t :=
  Book.mk (toString (length (books d) + 101))
          (Args.title args) (Args.publishedYear args) (Args.authorId args).

(** ** Predicates used in the statements *)

(** The same author object seen later: [id] and [name] as before,
    [bookIds] grown at the end. *)
Definition grown (a a' : Author.t) : Prop :=
  Author.id a' = Author.id a ∧
  Author.name a' = Author.name a ∧
  Author.bookIds a `prefix_of` Author.bookIds a'.

(** The stored books carry the ids "101", "102", ... in array order. *)
Definition sequential_ids (d : Store) : Prop :=
  Book.id <$> books d = (λ n, toString (n + 101)) <$> seq 0 (length (books d)).

(** What one [addBook] call hands back for its [args]. *)
Definition addBook_outcome (args : option Args.t) (r : outcome Book.t) : Prop :=
  match args with
  | Some args =>
      ∃ b, r = Returned b ∧
           Book.title b = Args.title args ∧
           Book.publishedYear b = Args.publishedYear args ∧
           Book.authorId b = Args.authorId args
  | None => r = Thrown TypeError
  end.

(** ** Store invariants *)

(** Every author's [bookIds] is, in order, the list of ids of the stored
    books that the filter of [Author.books] keeps for it: no id without a
    stored book, none twice, none out of store order. *)
Definition bookIds_resolve (d : Store) : Prop :=
  Forall (λ a, Book.id <$> filter (λ b, Book.id b ∈ Author.bookIds a) (books d)
               = Author.bookIds a)
         (authors d).

(** The two directions of the link agree: a stored book is listed by a
    stored author exactly when it names that author. *)
Definition links_agree (d : Store) : Prop :=
  Forall (λ a, Forall (λ b, Book.id b ∈ Author.bookIds a ↔
                            Book.authorId b = Author.id a)
                      (books d))
         (authors d).

(** The shape of the seed that [addBook] relies on. *)
Definition store_ok (d : Store) : Prop :=
  NoDup (Author.id <$> authors d) ∧
  sequential_ids d ∧
  bookIds_resolve d ∧
  links_agree d.

Global Instance sequential_ids_dec (d : Store) : Decision (sequential_ids d).
Proof. unfold sequential_ids. apply _. Defined.
Global Instance bookIds_resolve_dec (d : Store) : Decision (bookIds_resolve d).
Proof. unfold bookIds_resolve. apply _. Defined.
Global Instance links_agree_dec (d : Store) : Decision (links_agree d).
Proof. unfold links_agree. apply _. Defined.
Global Instance store_ok_dec (d : Store) : Decision (store_ok d).
Proof. unfold store_ok. apply _. Defined.

(** Unfolds the store-passing plumbing of a resolver applied to a store. *)
Ltac step_resolver :=
  unfold gets, lift, modify, mbind, Resolver_bind, mret, Resolver_ret;
  cbn beta iota delta [prop].

(** ** Sanity checks on the seed *)

Example toString_104 : toString (3 + 101) = "104".
Proof. reflexivity. Qed.

Example toString_carries :
  toString (9 + 101) = "110" ∧ toString (899 + 101) = "1000".
Proof. split; reflexivity. Qed.

(** [Author.books] follows the order of [data.books], not of [bookIds],
    and repeated or stale ids in [bookIds] add nothing. *)
Example Author_books_store_order :
  Author_books (Some (Author.mk "9" "Anyone" ["103"; "101"; "103"; "999"])) data =
  (Returned [ Book.mk "101" "Namaste Frontend System Design" (Some 2000%Z) "1";
              Book.mk "103" "Book 3" (Some 2020%Z) "2" ], data).
Proof. vm_compute. reflexivity. Qed.

(** Seed scenario: [Author.books] on Author "1" gives the two seeded
    books of that author, in store order. *)
Example Author_books_seed_author_1 :
  Author_books (Some (Author.mk "1" "Chirag Goel" ["101"; "102"])) data =
  (Returned [ Book.mk "101" "Namaste Frontend System Design" (Some 2000%Z) "1";
              Book.mk "102" "Book 2" (Some 2010%Z) "1" ], data).
Proof. vm_compute. reflexivity. Qed.

Example addBook_seed :
  Mutation_addBook (Some (Args.mk "New Book" (Some 2025%Z) "1")) data =
  (Returned (Book.mk "104" "New Book" (Some 2025%Z) "1"),
   {| authors :=
        [ Author.mk "1" "Chirag Goel" ["101"; "102"; "104"];
          Author.mk "2" "Akshay Saini" ["103"] ];
      books := books data ++ [Book.mk "104" "New Book" (Some 2025%Z) "1"] |}).
Proof. vm_compute. reflexivity. Qed.

Example Book_author_undefined_parent :
  Book_author None data = (Thrown TypeError, data).
Proof. reflexivity. Qed.

Example Book_author_undefined_parent_no_authors :
  Book_author None (mkStore [] []) = (Returned None, mkStore [] []).
Proof. reflexivity. Qed.

(** ** The array primitives on callbacks that do not throw *)

Section array_primitives.
Context {A : Type} (P : A → Prop) `{!∀ x, Decision (P x)}.
Variable p : A → outcome bool.

(** With a callback that always answers, [find] is the first match. *)
Lemma array_find_answers (l : list A) :
  (∀ x, p x = Returned (bool_decide (P x))) →
  array_find p l = Returned (list_find P l).
Proof.
  intros Hp. induction l as [|x l IH]; [done|].
  cbn. rewrite Hp, IH. cbn.
  case_bool_decide; [by rewrite decide_True|by rewrite decide_False].
Qed.

(** With a callback that always answers, [filter] keeps the matches. *)
Lemma array_filter_answers (l : list A) :
  (∀ x, p x = Returned (bool_decide (P x))) →
  array_filter p l = Returned (filter P l).
Proof.
  intros Hp. induction l as [|x l IH]; [done|].
  rewrite filter_cons. cbn [array_filter]. rewrite Hp, IH.
  cbn [mbind outcome_bind mret outcome_ret].
  case_bool_decide; [by rewrite decide_True|by rewrite decide_False].
Qed.


End array_primitives.


(** ** What each resolver computes on a call of the declared shape *)

Lemma Book_author_eq (b : Book.t) (d : Store) :
  Book_author (Some b) d =
  (Returned (snd <$> list_find (λ a, Author.id a = Book.authorId b) (authors d)), d).
Proof.
  unfold Book_author. step_resolver.
  by rewrite (array_find_answers (λ a, Author.id a = Book.authorId b)).
Qed.

Lemma Author_books_eq (a : Author.t) (d : Store) :
  Author_books (Some a) d =
  (Returned (filter (λ b, Book.id b ∈ Author.bookIds a) (books d)), d).
Proof.
  unfold Author_books. step_resolver.
  by rewrite (array_filter_answers (λ b, Book.id b ∈ Author.bookIds a)).
Qed.

Lemma Mutation_addBook_eq (args : Args.t) (d : Store) :
  Mutation_addBook (Some args) d =
  (Returned (newBook_of d args),
   {| authors :=
        match list_find (λ a, Author.id a = Args.authorId args) (authors d) with
        | Some (i, _) =>
            alter (Author.push_bookId (toString (length (books d) + 101))) i (authors d)
        | None => authors d
        end;
      books := books d ++ [newBook_of d args] |}).
Proof.
  unfold Mutation_addBook. step_resolver.
  rewrite (array_find_answers (λ a, Author.id a = Args.authorId args)) by done.
  by destruct (list_find _ _) as [[i a]|].
Qed.

(** Outside the declared shape: an absent [args] object throws at the
    first read, before anything is written. *)
Lemma Mutation_addBook_undefined (d : Store) :
  Mutation_addBook None d = (Thrown TypeError, d).
Proof. done. Qed.

(** ** Relational resolution *)

(** C1.  For every Book [b] (stored or not), [Book.author] applied to [b]
    returns, without throwing and without touching the store, the Author of
    the store whose id equals [b.authorId]: the first such author in array
    order, which is the only one when author ids are unique.  When no
    author has that id the result is absent ([undefined]), not a fault. *)
Theorem C1_Book_author_resolves (d : Store) (b : Book.t) :
  ∃ r : option Author.t,
    Book_author (Some b) d = (Returned r, d) ∧
    match r with
    | Some a =>
        a ∈ authors d ∧ Author.id a = Book.authorId b ∧
        ∃ i, authors d !! i = Some a ∧
             ∀ j a', authors d !! j = Some a' → j < i →
                     Author.id a' ≠ Book.authorId b
    | None => ∀ a, a ∈ authors d → Author.id a ≠ Book.authorId b
    end ∧
    (NoDup (Author.id <$> authors d) →
     ∀ a, a ∈ authors d → Author.id a = Book.authorId b → r = Some a).
Proof.
  eexists. split; [apply Book_author_eq|].
  destruct (list_find _ _) as [[i a]|] eqn:Hfind; cbn.
  - apply list_find_Some in Hfind as (Hi & Ha & Hfirst). split.
    + split_and!; [by eapply list_elem_of_lookup_2|done|].
      exists i. split; [done|]. intros j a' Hj Hlt. by eapply Hfirst.
    + intros Hnodup a' [j Hj]%list_elem_of_lookup Ha'. f_equal.
      assert (i = j) as ->; [|congruence].
      eapply NoDup_lookup; [exact Hnodup| |];
        rewrite list_lookup_fmap; [by rewrite Hi|rewrite Hj; cbn; congruence].
  - apply list_find_None in Hfind. rewrite Forall_forall in Hfind. split.
    + done.
    + intros _ a Ha Hid. by destruct (Hfind a Ha).
Qed.

(** C2.  For every Author [a], [Author.books] applied to [a] returns,
    without throwing and without touching the store, exactly the stored
    Books whose id appears in [a.bookIds]: every such Book and no other,
    each as often as the store holds it (so the result is a subsequence of
    [data.books], in the store's order, whatever the order or repetitions
    of [a.bookIds]); the result is empty when [a.bookIds] is empty or when
    no stored Book matches. *)
Theorem C2_Author_books_resolves (d : Store) (a : Author.t) :
  ∃ r : list Book.t,
    Author_books (Some a) d = (Returned r, d) ∧
    r = filter (λ b, Book.id b ∈ Author.bookIds a) (books d) ∧
    (∀ b, b ∈ r ↔ b ∈ books d ∧ Book.id b ∈ Author.bookIds a) ∧
    r `sublist_of` books d ∧
    (NoDup (books d) → NoDup r) ∧
    (NoDup (Book.id <$> books d) → NoDup (Book.id <$> r)) ∧
    (Author.bookIds a = [] → r = []) ∧
    ((∀ b, b ∈ books d → Book.id b ∉ Author.bookIds a) → r = []).
Proof.
  eexists. split; [apply Author_books_eq|]. split; [done|].
  split_and!.
  - intros b. rewrite list_elem_of_filter. tauto.
  - apply sublist_filter.
  - apply NoDup_filter.
  - intros Hnodup. eapply sublist_NoDup; [exact Hnodup|].
    apply fmap_sublist, sublist_filter.
  - intros Hnil. induction (books d) as [|b l IH]; [done|].
    rewrite filter_cons_False; [done|]. rewrite Hnil. apply not_elem_of_nil.
  - intros Hmiss. induction (books d) as [|b l IH]; [done|].
    rewrite filter_cons_False.
    + apply IH. intros b' Hb'. apply Hmiss. by right.
    + apply Hmiss. by left.
Qed.

(** ** The write operation *)

(** Pushing onto one author's [bookIds] keeps every author's [id] and
    [name] and the number of authors. *)
Lemma push_bookId_ids (x : string) (i : nat) (l : list Author.t) :
  Author.id <$> alter (Author.push_bookId x) i l = Author.id <$> l.
Proof.
  rewrite (list_fmap_alter _ (Author.push_bookId x) id) by by apply Forall_true.
  by apply list_alter_id.
Qed.

Lemma push_bookId_names (x : string) (i : nat) (l : list Author.t) :
  Author.name <$> alter (Author.push_bookId x) i l = Author.name <$> l.
Proof.
  rewrite (list_fmap_alter _ (Author.push_bookId x) id) by by apply Forall_true.
  by apply list_alter_id.
Qed.

(** C4.  For every store and every argument triple, [addBook] returns a
    Book whose id is the decimal text of the current number of books plus
    101 and whose other fields are the arguments; the Book is appended to
    [data.books]; and when an Author with the given [authorId] exists, the
    new id is appended to the [bookIds] of that Author (the first one
    found), every other Author being left as it was. *)
Theorem C4_addBook_creates (d : Store) (args : Args.t) :
  ∃ (newBook : Book.t) (d' : Store),
    Mutation_addBook (Some args) d = (Returned newBook, d') ∧
    Book.id newBook = toString (length (books d) + 101) ∧
    Book.title newBook = Args.title args ∧
    Book.publishedYear newBook = Args.publishedYear args ∧
    Book.authorId newBook = Args.authorId args ∧
    books d' = books d ++ [newBook] ∧
    match list_find (λ a, Author.id a = Args.authorId args) (authors d) with
    | Some (i, author) =>
        authors d' =
          <[i := Author.mk (Author.id author) (Author.name author)
                           (Author.bookIds author ++ [Book.id newBook])]> (authors d)
    | None => authors d' = authors d
    end.
Proof.
  eexists _, _. split; [apply Mutation_addBook_eq|].
  split_and!; try done. cbn [authors].
  destruct (list_find _ _) as [[i author]|] eqn:Hfind; [|done].
  apply list_find_Some in Hfind as (Hi & _ & _).
  apply list_eq. intros j. destruct (decide (i = j)) as [<-|Hne].
  - rewrite list_lookup_alter_eq, Hi.
    rewrite list_lookup_insert_eq by by eapply lookup_lt_Some. done.
  - by rewrite list_lookup_alter_ne, list_lookup_insert_ne.
Qed.

(** C3.  On a store where an Author with id "1" exists,
    [addBook(title = "New Book", publishedYear = 2025, authorId = "1")]
    returns a Book and (a) [Query.books] is one longer than before, the new
    Book being its last element, (b) the new Book's [authorId] is "1",
    (c) the Author object with id "1" that the lookup finds — the same
    array slot before and after — is what [Book.author] resolves the new
    Book to, and [Author.books] on it now includes the new Book (on every
    Author with id "1" when author ids are unique), (d) the returned
    Book's [title] is "New Book" and its [publishedYear] is 2025. *)
Theorem C3_addBook_New_Book (d : Store) :
  (∃ a, a ∈ authors d ∧ Author.id a = "1") →
  ∃ (newBook : Book.t) (d' : Store),
    Mutation_addBook (Some (Args.mk "New Book" (Some 2025%Z) "1")) d
      = (Returned newBook, d') ∧
    (* a *)
    (∃ before after,
       Query_books d = (Returned before, d) ∧
       Query_books d' = (Returned after, d') ∧
       length after = S (length before) ∧
       after = before ++ [newBook]) ∧
    (* b *)
    Book.authorId newBook = "1" ∧
    (* c *)
    (∃ i a a',
       list_find (λ a, Author.id a = "1") (authors d) = Some (i, a) ∧
       authors d' !! i = Some a' ∧
       Author.id a' = "1" ∧
       Book_author (Some newBook) d' = (Returned (Some a'), d') ∧
       ∃ bs, Author_books (Some a') d' = (Returned bs, d') ∧ newBook ∈ bs) ∧
    (NoDup (Author.id <$> authors d) →
     ∀ a', a' ∈ authors d' → Author.id a' = "1" →
       ∃ bs, Author_books (Some a') d' = (Returned bs, d') ∧ newBook ∈ bs) ∧
    (* d *)
    Book.title newBook = "New Book" ∧
    Book.publishedYear newBook = Some 2025%Z.
Proof.
  intros (a0 & Ha0 & Hid0).
  destruct (list_find_elem_of (λ a, Author.id a = "1") _ a0 Ha0 Hid0)
    as [[i a] Hfind].
  eexists _, _. split; [apply Mutation_addBook_eq|].
  cbn [Args.authorId]. rewrite Hfind.
  set (newBook := newBook_of d _).
  set (d' := mkStore _ _).
  pose proof Hfind as (Hi & Ha & Hfirst)%list_find_Some.
  assert (authors d' !! i = Some (Author.push_bookId (Book.id newBook) a)) as Hi'.
  { subst d'. cbn [authors]. by rewrite list_lookup_alter_eq, Hi. }
  assert (∀ a', Book.id newBook ∈ Author.bookIds a' →
            ∃ bs, Author_books (Some a') d' = (Returned bs, d') ∧ newBook ∈ bs)
    as Hbooks.
  { intros a' Hin. eexists. split; [apply Author_books_eq|].
    apply list_elem_of_filter. split; [done|].
    subst d'. cbn [books]. apply elem_of_app. right. by left. }
  split_and!; try done.
  - exists (books d), (books d'). split_and!; try done.
    subst d'. cbn [books]. rewrite length_app. cbn. lia.
  - exists i, a, (Author.push_bookId (Book.id newBook) a).
    split_and!; try done.
    + rewrite Book_author_eq. do 2 f_equal.
      assert (list_find (λ a, Author.id a = Book.authorId newBook) (authors d')
              = Some (i, Author.push_bookId (Book.id newBook) a)) as ->; [|done].
      apply list_find_Some. split_and!; try done.
      intros j y Hj Hlt. subst d'. cbn [authors] in Hj.
      rewrite list_lookup_alter_ne in Hj by lia. by eapply Hfirst.
    + apply Hbooks. cbn. apply elem_of_app. right. by left.
  - intros Hnodup a' [j Hj]%list_elem_of_lookup Hid'.
    assert (j = i) as ->.
    { eapply NoDup_lookup; [exact Hnodup| |].
      - assert (Author.id <$> authors d' = Author.id <$> authors d) as <-
          by (subst d'; cbn [authors]; apply push_bookId_ids).
        rewrite list_lookup_fmap, Hj. cbn. by rewrite Hid'.
      - rewrite list_lookup_fmap, Hi. cbn. by rewrite Ha. }
    rewrite Hi' in Hj. injection Hj as <-.
    apply Hbooks. cbn. apply elem_of_app. right. by left.
Qed.

(** The hypothesis of C3 holds on the seed: Author "1" is there. *)
Lemma witness_C3_on_seed :
  ∃ (newBook : Book.t) (d' : Store),
    Mutation_addBook (Some (Args.mk "New Book" (Some 2025%Z) "1")) data
      = (Returned newBook, d') ∧
    (∃ before after,
       Query_books data = (Returned before, data) ∧
       Query_books d' = (Returned after, d') ∧
       length after = S (length before) ∧
       after = before ++ [newBook]) ∧
    Book.authorId newBook = "1" ∧
    (∃ i a a',
       list_find (λ a, Author.id a = "1") (authors data) = Some (i, a) ∧
       authors d' !! i = Some a' ∧
       Author.id a' = "1" ∧
       Book_author (Some newBook) d' = (Returned (Some a'), d') ∧
       ∃ bs, Author_books (Some a') d' = (Returned bs, d') ∧ newBook ∈ bs) ∧
    (NoDup (Author.id <$> authors data) →
     ∀ a', a' ∈ authors d' → Author.id a' = "1" →
       ∃ bs, Author_books (Some a') d' = (Returned bs, d') ∧ newBook ∈ bs) ∧
    Book.title newBook = "New Book" ∧
    Book.publishedYear newBook = Some 2025%Z.
Proof.
  apply (C3_addBook_New_Book data).
  exists (Author.mk "1" "Chirag Goel" ["101"; "102"]). split; [|reflexivity].
  apply list_elem_of_here.
Defined.

(** C5.  When [addBook] is called with an [authorId] that no Author of the
    store has, the call still returns a created Book carrying that
    [authorId], appended to [data.books]; the authors collection is left
    exactly as it was (no [bookIds] gains the new id); and [Book.author]
    on the returned Book resolves to absent. *)
Theorem C5_addBook_unlinked (d : Store) (args : Args.t) :
  (∀ a, a ∈ authors d → Author.id a ≠ Args.authorId args) →
  ∃ (newBook : Book.t) (d' : Store),
    Mutation_addBook (Some args) d = (Returned newBook, d') ∧
    Book.authorId newBook = Args.authorId args ∧
    Book.title newBook = Args.title args ∧
    Book.publishedYear newBook = Args.publishedYear args ∧
    books d' = books d ++ [newBook] ∧
    authors d' = authors d ∧
    Book_author (Some newBook) d' = (Returned None, d').
Proof.
  intros Hmiss.
  assert (list_find (λ a, Author.id a = Args.authorId args) (authors d) = None)
    as Hfind by by apply list_find_None, Forall_forall.
  eexists _, _. split; [apply Mutation_addBook_eq|].
  rewrite Hfind. split_and!; try done.
  rewrite Book_author_eq. cbn [authors Book.authorId newBook_of].
  by rewrite Hfind.
Qed.

(** The hypothesis of C5 holds on the seed for the id "does-not-exist". *)
Lemma witness_C5_on_seed :
  ∃ (newBook : Book.t) (d' : Store),
    Mutation_addBook (Some (Args.mk "X" (Some 1999%Z) "does-not-exist")) data
      = (Returned newBook, d') ∧
    Book.authorId newBook = "does-not-exist" ∧
    Book.title newBook = "X" ∧
    Book.publishedYear newBook = Some 1999%Z ∧
    books d' = books data ++ [newBook] ∧
    authors d' = authors data ∧
    Book_author (Some newBook) d' = (Returned None, d').
Proof.
  apply (C5_addBook_unlinked data (Args.mk "X" (Some 1999%Z) "does-not-exist")).
  intros a Ha. cbn in Ha.
  apply elem_of_cons in Ha as [->|Ha]; [discriminate|].
  apply elem_of_cons in Ha as [->|Ha]; [discriminate|].
  by apply elem_of_nil in Ha.
Defined.

(** ** Frame: what the operations do to the authors *)

(** The store a request leaves behind, request by request. *)
Lemma resolve_exec (r : request) (d : Store) :
  exec (resolve r) d =
  match r with
  | Req_Mutation_addBook args => exec (Mutation_addBook args) d
  | _ => d
  end.
Proof.
  unfold exec. destruct r as [[b|]|[a|]| | |args]; cbn [resolve].
  - unfold mbind, Resolver_bind. by rewrite Book_author_eq.
  - unfold Book_author. step_resolver.
    by destruct (array_find _ _).
  - unfold mbind, Resolver_bind. by rewrite Author_books_eq.
  - unfold Author_books. step_resolver.
    by destruct (array_filter _ _).
  - done.
  - done.
  - unfold mbind, Resolver_bind.
    by destruct (Mutation_addBook args d) as [[b|e] d'].
Qed.

(** C6, as the code has it.  The four read operations leave the authors
    collection identical.  [addBook] never creates or deletes an Author and
    never changes an Author's [id] or [name] (same length, same ids and
    names position by position), but it does modify one Author: it appends
    the new Book's id to the [bookIds] of the first Author whose id equals
    [authorId]; when no Author matches, or the call throws, the authors
    collection is identical. *)
Theorem C6_authors_frame (r : request) (d : Store) :
  let d' := exec (resolve r) d in
  length (authors d') = length (authors d) ∧
  Author.id <$> authors d' = Author.id <$> authors d ∧
  Author.name <$> authors d' = Author.name <$> authors d ∧
  match r with
  | Req_Mutation_addBook (Some args) =>
      match list_find (λ a, Author.id a = Args.authorId args) (authors d) with
      | Some (i, author) =>
          authors d' !! i =
            Some (Author.mk (Author.id author) (Author.name author)
                    (Author.bookIds author
                       ++ [toString (length (books d) + 101)])) ∧
          ∀ j, j ≠ i → authors d' !! j = authors d !! j
      | None => authors d' = authors d
      end
  | _ => authors d' = authors d
  end.
Proof.
  cbv zeta. rewrite resolve_exec.
  destruct r as [parent|parent| | |[args|]]; try done.
  unfold exec. rewrite Mutation_addBook_eq. cbn [snd authors].
  destruct (list_find _ _) as [[i author]|] eqn:Hfind; [|done].
  apply list_find_Some in Hfind as (Hi & _ & _).
  rewrite length_alter, push_bookId_ids, push_bookId_names.
  split_and!; try done.
  - by rewrite list_lookup_alter_eq, Hi.
  - intros j Hj. by rewrite list_lookup_alter_ne.
Qed.

(** C6, as stated, fails: on the seed store,
    [addBook("New Book", 2025, "1")] leaves an authors collection that
    differs from the one before (Author "1" has gained the id "104"). *)
Lemma C6_addBook_modifies_authors :
  authors (exec (resolve (Req_Mutation_addBook
                            (Some (Args.mk "New Book" (Some 2025%Z) "1")))) data)
  ≠ authors data.
Proof. vm_compute. discriminate. Qed.

(** ** Reads *)

(** C8.  [Query.authors] called twice in a row yields the same sequence
    both times, and so does [Query.books]; each read returns the
    collection of the store it runs against and leaves that store as it
    was. *)
Theorem C8_queries_idempotent (d : Store) :
  Query_authors d = (Returned (authors d), d) ∧
  Query_books d = (Returned (books d), d) ∧
  (first ← Query_authors; second ← Query_authors; mret (first, second)) d
    = (Returned (authors d, authors d), d) ∧
  (first ← Query_books; second ← Query_books; mret (first, second)) d
    = (Returned (books d, books d), d) ∧
  (first ← resolve Req_Query_authors; second ← resolve Req_Query_authors;
   mret (first, second)) d
    = (Returned (Resp_authors (authors d), Resp_authors (authors d)), d) ∧
  (first ← resolve Req_Query_books; second ← resolve Req_Query_books;
   mret (first, second)) d
    = (Returned (Resp_books (books d), Resp_books (books d)), d).
Proof. by split_and!. Qed.

(** ** No fault on well-shaped calls *)

(** C9.  Every operation called with arguments of the declared shape
    returns: no request of the declared shape throws, in any store.  A
    [Book.author] lookup that misses returns absent; [Author.books]
    returns a subsequence of the stored books, empty when nothing
    matches; both leave the store as it was. *)
Theorem C9_no_fault (r : request) (d : Store) :
  declared_shape r →
  (∃ (v : response) (d' : Store), resolve r d = (Returned v, d')) ∧
  (∀ b, (∀ a, a ∈ authors d → Author.id a ≠ Book.authorId b) →
        resolve (Req_Book_author (Some b)) d = (Returned (Resp_author None), d)) ∧
  (∀ a, ∃ bs,
        resolve (Req_Author_books (Some a)) d = (Returned (Resp_books bs), d) ∧
        bs `sublist_of` books d ∧
        ((∀ b, b ∈ books d → Book.id b ∉ Author.bookIds a) → bs = [])).
Proof.
  intros Hshape. split_and!.
  - destruct r as [[b|]|[a|]| | |[args|]];
      try (by destruct Hshape); cbn [resolve]; unfold mbind, Resolver_bind.
    + rewrite Book_author_eq. by eexists _, _.
    + rewrite Author_books_eq. by eexists _, _.
    + by eexists _, _.
    + by eexists _, _.
    + rewrite Mutation_addBook_eq. by eexists _, _.
  - intros b Hmiss. cbn [resolve]. unfold mbind, Resolver_bind.
    rewrite Book_author_eq.
    assert (list_find (λ a, Author.id a = Book.authorId b) (authors d) = None)
      as -> by by apply list_find_None, Forall_forall.
    done.
  - intros a. cbn [resolve]. unfold mbind, Resolver_bind.
    rewrite Author_books_eq. eexists. split; [done|].
    split; [apply sublist_filter|].
    intros Hmiss. induction (books d) as [|b l IH]; [done|].
    rewrite filter_cons_False.
    + apply IH. intros b' Hb'. apply Hmiss. by right.
    + apply Hmiss. by left.
Qed.

(** A request of the declared shape: [Book.author] on a Book whose
    [authorId] matches no Author. *)
Lemma witness_C9_dangling_book :
  (∃ (v : response) (d' : Store),
     resolve (Req_Book_author (Some (Book.mk "999" "Ghost" None "nobody"))) data
       = (Returned v, d')) ∧
  (∀ b, (∀ a, a ∈ authors data → Author.id a ≠ Book.authorId b) →
        resolve (Req_Book_author (Some b)) data
          = (Returned (Resp_author None), data)) ∧
  (∀ a, ∃ bs,
        resolve (Req_Author_books (Some a)) data = (Returned (Resp_books bs), data) ∧
        bs `sublist_of` books data ∧
        ((∀ b, b ∈ books data → Book.id b ∉ Author.bookIds a) → bs = [])).
Proof.
  apply (C9_no_fault (Req_Book_author (Some (Book.mk "999" "Ghost" None "nobody"))) data).
  cbn. by eexists.
Defined.


(** ** Sequences of mutations *)

Lemma grown_refl (a : Author.t) : grown a a.
Proof. by split_and!. Qed.

Lemma grown_trans (a b c : Author.t) : grown a b → grown b c → grown a c.
Proof.
  intros (? & ? & ?) (? & ? & ?). split_and!; [congruence..|by etrans].
Qed.

Lemma grown_push (x : string) (a : Author.t) : grown a (Author.push_bookId x a).
Proof. split_and!; [done..|]. by apply prefix_app_r. Qed.

(** One [addBook] call, well-shaped or not: the books grow by what it
    returned and every author is the same object, possibly grown. *)
Lemma addBook_step (args : option Args.t) (d : Store) :
  addBook_outcome args (result (Mutation_addBook args) d) ∧
  books (exec (Mutation_addBook args) d)
    = books d ++ returned [result (Mutation_addBook args) d] ∧
  Forall2 grown (authors d) (authors (exec (Mutation_addBook args) d)) ∧
  (sequential_ids d → sequential_ids (exec (Mutation_addBook args) d)).
Proof.
  unfold result, exec. destruct args as [args|].
  - rewrite Mutation_addBook_eq. cbn [fst snd books authors].
    split_and!.
    + by eexists.
    + done.
    + destruct (list_find _ _) as [[i a]|].
      * apply Forall2_alter_r; [by apply Forall_Forall2_diag, Forall_true, grown_refl|].
        intros a1 a2 _ _ Hg. eapply grown_trans; [exact Hg|apply grown_push].
      * by apply Forall_Forall2_diag, Forall_true, grown_refl.
    + unfold sequential_ids. cbn [books]. intros Hseq.
      rewrite length_app, fmap_app, Hseq. cbn [length].
      replace (length (books d) + 1) with (S (length (books d))) by lia.
      by rewrite seq_S, fmap_app.
  - rewrite Mutation_addBook_undefined. cbn [fst snd]. split_and!; try done.
    + cbn. by rewrite app_nil_r.
    + by apply Forall_Forall2_diag, Forall_true, grown_refl.
Qed.

Lemma addBooks_spec (calls : list (option Args.t)) (d : Store) :
  Forall2 addBook_outcome calls (addBooks calls d).1 ∧
  books (addBooks calls d).2 = books d ++ returned (addBooks calls d).1 ∧
  Forall2 grown (authors d) (authors (addBooks calls d).2) ∧
  (sequential_ids d → sequential_ids (addBooks calls d).2).
Proof.
  revert d. induction calls as [|args calls IH]; intros d.
  - cbn. split_and!; [constructor|by rewrite app_nil_r| |done].
    by apply Forall_Forall2_diag, Forall_true, grown_refl.
  - cbn [addBooks].
    destruct (addBook_step args d) as (Hout & Hbooks & Hauthors & Hseq).
    unfold result, exec in *.
    destruct (Mutation_addBook args d) as [r d1].
    destruct (IH d1) as (Houts & Hbooks' & Hauthors' & Hseq').
    destruct (addBooks calls d1) as [rs d2]. cbn [fst snd] in *.
    split_and!.
    + by constructor.
    + rewrite Hbooks', Hbooks, <-app_assoc. f_equal. by destruct r.
    + eapply Forall2_trans; [|exact Hauthors|exact Hauthors'].
      intros ???. apply grown_trans.
    + auto.
Qed.

(** The id that the next [addBook] would generate is not in use. *)
Lemma sequential_ids_NoDup (d : Store) :
  sequential_ids d →
  NoDup (Book.id <$> books d) ∧
  ∀ b, b ∈ books d → Book.id b ≠ toString (length (books d) + 101).
Proof.
  unfold sequential_ids, toString. intros Hseq.
  assert (Inj (=) (=) (λ n : nat, pretty (n + 101))) as Hinj.
  { intros n m Hnm. apply (inj pretty) in Hnm. lia. }
  split.
  - rewrite Hseq. apply (NoDup_fmap_2 _), NoDup_seq.
  - intros b Hb Hid.
    assert (Book.id b ∈ Book.id <$> books d) as Hin by by apply list_elem_of_fmap_2.
    rewrite Hseq in Hin. apply list_elem_of_fmap in Hin as (n & Hn & Hin).
    rewrite Hid in Hn. apply Hinj in Hn. apply elem_of_seq in Hin. lia.
Qed.

Lemma grown_ids_names (l l' : list Author.t) :
  Forall2 grown l l' →
  Author.id <$> l' = Author.id <$> l ∧ Author.name <$> l' = Author.name <$> l.
Proof.
  induction 1 as [|a a' l l' (Hid & Hname & _) _ [IHid IHname]]; [done|].
  cbn. by rewrite Hid, Hname, IHid, IHname.
Qed.

(** C7.  Starting from the seed and after any sequence of [addBook]
    calls, [Query.authors] returns the seeded Authors (the two seeded
    objects, in seed order, with their seeded ids and names, their
    [bookIds] possibly grown by the mutations), and [Query.books] returns
    the seeded Books followed by every Book that an [addBook] call
    returned, in call order.  Before any call both return the seed
    collections themselves. *)
Theorem C7_queries_list_everything (calls : list (option Args.t)) :
  ∃ (outs : list (outcome Book.t)) (d : Store),
    addBooks calls data = (outs, d) ∧
    Forall2 addBook_outcome calls outs ∧
    Query_books d = (Returned (books data ++ returned outs), d) ∧
    (∃ l, Query_authors d = (Returned l, d) ∧
          Forall2 grown (authors data) l ∧
          Author.id <$> l = ["1"; "2"] ∧
          Author.name <$> l = ["Chirag Goel"; "Akshay Saini"]) ∧
    Query_authors data = (Returned (authors data), data) ∧
    Query_books data = (Returned (books data), data).
Proof.
  destruct (addBooks_spec calls data) as (Houts & Hbooks & Hauthors & _).
  destruct (addBooks calls data) as [outs d]. cbn [fst snd] in *.
  exists outs, d. split_and!; try done.
  - unfold Query_books, gets. by rewrite Hbooks.
  - exists (authors d). split; [done|]. split; [done|].
    by apply grown_ids_names in Hauthors as [-> ->].
Qed.

(** ** Identifier generation *)

(** C10.  Starting from the seed (book ids "101", "102", "103") and after
    any sequence of [addBook] calls, the ids of the stored books are
    pairwise distinct: the books are the seeded ones followed by the
    created ones (nothing is removed), their ids are the texts of 101,
    102, ... in array order (the book in slot [i] has id [i + 101], below
    the book count plus 101), and the id the next call would generate
    (book count plus 101) is carried by no stored book. *)
Theorem C10_book_ids_distinct (calls : list (option Args.t)) :
  ∃ (outs : list (outcome Book.t)) (d : Store),
    addBooks calls data = (outs, d) ∧
    NoDup (Book.id <$> books d) ∧
    (∀ i j bi bj, books d !! i = Some bi → books d !! j = Some bj →
                  Book.id bi = Book.id bj → i = j) ∧
    sequential_ids d ∧
    (∀ i b, books d !! i = Some b →
            Book.id b = toString (i + 101) ∧
            i + 101 < length (books d) + 101) ∧
    (∀ b, b ∈ books d → Book.id b ≠ toString (length (books d) + 101)) ∧
    books data `prefix_of` books d.
Proof.
  destruct (addBooks_spec calls data) as (_ & Hbooks & _ & Hseq).
  destruct (addBooks calls data) as [outs d]. cbn [fst snd] in *.
  assert (sequential_ids d) as Hd by by apply Hseq.
  destruct (sequential_ids_NoDup d Hd) as [Hnodup Hfresh].
  exists outs, d. split_and!; try done.
  - intros i j bi bj Hi Hj Hid.
    eapply NoDup_lookup; [exact Hnodup| |]; rewrite list_lookup_fmap.
    + by rewrite Hi.
    + rewrite Hj. cbn. by rewrite Hid.
  - intros i b Hi. pose proof (lookup_lt_Some _ _ _ Hi) as Hlt.
    split; [|lia].
    assert ((Book.id <$> books d) !! i = Some (Book.id b)) as Hid
      by by rewrite list_lookup_fmap, Hi.
    rewrite Hd, list_lookup_fmap, lookup_seq_lt in Hid by done.
    by injection Hid as <-.
  - rewrite Hbooks. by eexists.
Qed.

(** ** Beyond the seed scenarios: faults, frame and invariants *)

Lemma store_ok_data : store_ok data.
Proof. apply (bool_decide_unpack _). vm_compute. exact I. Qed.



(** X2.  No request removes, reorders or edits a stored book: the books
    before a request are a prefix of the books after it, [Query.books]
    afterwards is at least as long, and the store changes at all only
    through an [addBook] call that has its [args]: every read, returning
    or throwing, leaves the whole store as it was. *)
Theorem resolve_books_frame (r : request) (d : Store) :
  books d `prefix_of` books (exec (resolve r) d) ∧
  (∀ i b, books d !! i = Some b → books (exec (resolve r) d) !! i = Some b) ∧
  match r with
  | Req_Mutation_addBook (Some args) =>
      length (books (exec (resolve r) d)) = S (length (books d))
  | _ => exec (resolve r) d = d
  end.
Proof.
  rewrite resolve_exec.
  destruct r as [parent|parent| | |[args|]]; try done.
  unfold exec. rewrite Mutation_addBook_eq. cbn [snd books].
  split_and!.
  - by apply prefix_app_r.
  - intros i b Hi. by apply lookup_app_l_Some.
  - rewrite length_app. cbn. lia.
Qed.

(** X3.  In any store, the calls of a sequence of [addBook] calls that
    return hand out consecutive ids, starting at the number of books in
    the store plus 101; each call with its [args] returns, and the store
    ends up longer by the number of such calls. *)
Theorem addBooks_ids_consecutive (calls : list (option Args.t)) (d : Store) :
  let created := returned (addBooks calls d).1 in
  Book.id <$> created
    = (λ n, toString (n + 101)) <$> seq (length (books d)) (length created) ∧
  length created = length (omap id calls) ∧
  length (books (addBooks calls d).2) = length (books d) + length created.
Proof.
  cbv zeta. revert d. induction calls as [|[args|] calls IH]; intros d.
  - cbn. split_and!; [done..|lia].
  - cbn [addBooks]. rewrite Mutation_addBook_eq.
    set (d1 := mkStore _ _).
    destruct (IH d1) as (Hids & Hlen & Hbooks).
    destruct (addBooks calls d1) as [rs d2]. cbn [fst snd] in *.
    assert (length (books d1) = S (length (books d))) as Hd1.
    { subst d1. cbn [books]. rewrite length_app. cbn. lia. }
    rewrite Hd1 in Hids, Hbooks.
    change (returned (Returned (newBook_of d args) :: rs))
      with (newBook_of d args :: returned rs).
    cbn [length seq fmap list_fmap omap list_omap id].
    split_and!.
    + by rewrite <-Hids.
    + by rewrite Hlen.
    + lia.
  - cbn [addBooks]. rewrite Mutation_addBook_undefined.
    destruct (IH d) as (Hids & Hlen & Hbooks).
    by destruct (addBooks calls d) as [rs d2].
Qed.

(** ** The link invariant *)

Lemma filter_ext_in {A} (P Q : A → Prop)
    `{!∀ x, Decision (P x), !∀ x, Decision (Q x)} (l : list A) :
  (∀ x, x ∈ l → (P x ↔ Q x)) → filter P l = filter Q l.
Proof.
  induction l as [|x l IH]; intros Hext; [done|].
  rewrite !filter_cons, IH by (intros y Hy; apply Hext; by right).
  destruct (decide (P x)) as [HP|HP], (decide (Q x)) as [HQ|HQ]; try done;
    destruct (Hext x); try (by left); tauto.
Qed.

(** With distinct author ids, the lookup by id finds the author itself. *)
Lemma find_by_id (l : list Author.t) (a : Author.t) :
  NoDup (Author.id <$> l) → a ∈ l →
  ∃ i, list_find (λ y, Author.id y = Author.id a) l = Some (i, a).
Proof.
  intros Hnd Ha.
  destruct (list_find_elem_of (λ y, Author.id y = Author.id a) l a Ha eq_refl)
    as [[i a1] Hfind].
  exists i. rewrite Hfind. do 2 f_equal.
  apply list_find_Some in Hfind as (Hi & Hid & _).
  apply list_elem_of_lookup in Ha as [j Hj].
  assert (i = j) as ->; [|congruence].
  eapply NoDup_lookup; [exact Hnd| |]; rewrite list_lookup_fmap.
  - rewrite Hi. cbn. by rewrite Hid.
  - by rewrite Hj.
Qed.

(** The authors after an [addBook] call: the one the lookup found, with the
    new id pushed, and the others, untouched. *)
Lemma addBook_author_cases (args : Args.t) (d : Store) (a' : Author.t) :
  NoDup (Author.id <$> authors d) →
  a' ∈ authors (exec (Mutation_addBook (Some args)) d) →
  (a' ∈ authors d ∧ Author.id a' ≠ Args.authorId args) ∨
  (∃ a0, a0 ∈ authors d ∧ Author.id a0 = Args.authorId args ∧
         a' = Author.push_bookId (toString (length (books d) + 101)) a0).
Proof.
  intros Hnd. unfold exec. rewrite Mutation_addBook_eq. cbn [snd authors].
  destruct (list_find _ _) as [[i a0]|] eqn:Hfind.
  - pose proof Hfind as (Hi & Hid & _)%list_find_Some.
    intros [j Hj]%list_elem_of_lookup.
    destruct (decide (i = j)) as [<-|Hne].
    + right. exists a0. rewrite list_lookup_alter_eq, Hi in Hj.
      injection Hj as <-. split_and!; [by eapply list_elem_of_lookup_2|done..].
    + left. rewrite list_lookup_alter_ne in Hj by done.
      split; [by eapply list_elem_of_lookup_2|].
      intros Hid'. apply Hne.
      eapply NoDup_lookup; [exact Hnd| |]; rewrite list_lookup_fmap.
      * rewrite Hi. cbn. by rewrite Hid.
      * rewrite Hj. cbn. by rewrite Hid'.
  - intros Ha'. left. split; [done|].
    apply list_find_None in Hfind. rewrite Forall_forall in Hfind. by apply Hfind.
Qed.

(** In a store of the seed's shape the next id is in use nowhere: no
    stored book carries it and no author lists it. *)
Lemma store_ok_fresh (d : Store) :
  store_ok d →
  (∀ b, b ∈ books d → Book.id b ≠ toString (length (books d) + 101)) ∧
  (∀ a, a ∈ authors d → toString (length (books d) + 101) ∉ Author.bookIds a).
Proof.
  intros (Hnd & Hseq & Hres & Hlink).
  destruct (sequential_ids_NoDup d Hseq) as [_ Hfresh]. split; [done|].
  intros a Ha Hin. unfold bookIds_resolve in Hres. rewrite Forall_forall in Hres.
  rewrite <-(Hres a Ha) in Hin.
  apply list_elem_of_fmap in Hin as (b & Hb & Hbin).
  apply list_elem_of_filter in Hbin as [_ Hbin]. by eapply Hfresh.
Qed.

Lemma addBook_keeps_store_ok (args : option Args.t) (d : Store) :
  store_ok d → store_ok (exec (Mutation_addBook args) d).
Proof.
  intros Hok. destruct args as [args|];
    [|by unfold exec; rewrite Mutation_addBook_undefined].
  destruct (store_ok_fresh d Hok) as [Hfresh HfreshA].
  pose proof Hok as (Hnd & Hseq & Hres & Hlink).
  unfold bookIds_resolve in Hres. rewrite Forall_forall in Hres.
  unfold links_agree in Hlink. rewrite Forall_forall in Hlink.
  pose proof (addBook_author_cases args d) as Hcases.
  assert (books (exec (Mutation_addBook (Some args)) d)
          = books d ++ [newBook_of d args]) as Hbooks
    by by unfold exec; rewrite Mutation_addBook_eq.
  set (n := toString (length (books d) + 101)) in *.
  split_and!.
  - unfold exec. rewrite Mutation_addBook_eq. cbn [snd authors].
    destruct (list_find _ _) as [[i a0]|]; [by rewrite push_bookId_ids|done].
  - by apply addBook_step.
  - unfold bookIds_resolve. apply Forall_forall. intros a' Ha'.
    rewrite Hbooks, filter_app, fmap_app.
    destruct (Hcases a' Hnd Ha') as [[Ha Hne]|(a0 & Ha0 & Hid0 & ->)].
    + rewrite (Hres a' Ha), filter_cons_False, filter_nil by by apply HfreshA.
      by rewrite app_nil_r.
    + cbn [Author.bookIds Author.push_bookId].
      rewrite (filter_ext_in _ (λ b, Book.id b ∈ Author.bookIds a0) (books d)).
      * rewrite (Hres a0 Ha0), filter_cons_True, filter_nil; [done|].
        apply elem_of_app. right. by left.
      * intros b Hb. rewrite elem_of_app, list_elem_of_singleton.
        pose proof (Hfresh b Hb). tauto.
  - unfold links_agree. apply Forall_forall. intros a' Ha'.
    rewrite Hbooks. apply Forall_app. split.
    + apply Forall_forall. intros b Hb.
      destruct (Hcases a' Hnd Ha') as [[Ha Hne]|(a0 & Ha0 & Hid0 & ->)].
      * pose proof (Hlink a' Ha) as Hl. rewrite Forall_forall in Hl. by apply Hl.
      * pose proof (Hlink a0 Ha0) as Hl. rewrite Forall_forall in Hl.
        cbn [Author.bookIds Author.push_bookId Author.id].
        rewrite elem_of_app, list_elem_of_singleton, <-(Hl b Hb).
        pose proof (Hfresh b Hb). tauto.
    + apply Forall_singleton. cbn [newBook_of Book.id Book.authorId].
      destruct (Hcases a' Hnd Ha') as [[Ha Hne]|(a0 & Ha0 & Hid0 & ->)].
      * split; [by intros ?%HfreshA|by intros Heq].
      * cbn [Author.bookIds Author.push_bookId Author.id].
        split; [done|]. intros _. apply elem_of_app. right. by left.
Qed.

(** X4.  The shape of the seed is an invariant of [addBook]: from a store
    with distinct author ids, book ids "101", "102", ... in array order,
    every author's [bookIds] equal to the ids of its stored books in store
    order, and a book listed by an author exactly when it names that
    author, any sequence of [addBook] calls (with or without [args], for
    known or unknown authors) leads to a store of the same shape. *)
Theorem addBooks_keep_store_ok (calls : list (option Args.t)) (d : Store) :
  store_ok d → store_ok (addBooks calls d).2.
Proof.
  revert d. induction calls as [|args calls IH]; intros d Hok; [done|].
  cbn [addBooks].
  pose proof (addBook_keeps_store_ok args d Hok) as Hok1. unfold exec in Hok1.
  destruct (Mutation_addBook args d) as [r d1].
  specialize (IH d1 Hok1).
  by destruct (addBooks calls d1) as [rs d2].
Qed.

(** The seed has the shape, and it is kept through a linked call, a call
    without [args] and a call for an unknown author. *)
Lemma witness_X4_on_seed :
  store_ok (addBooks [ Some (Args.mk "New Book" (Some 2025%Z) "1"); None;
                       Some (Args.mk "X" (Some 1999%Z) "does-not-exist") ] data).2.
Proof.
  apply (addBooks_keep_store_ok
           [ Some (Args.mk "New Book" (Some 2025%Z) "1"); None;
             Some (Args.mk "X" (Some 1999%Z) "does-not-exist") ] data).
  apply (bool_decide_unpack _). vm_compute. exact I.
Defined.

(** X5.  In a store of that shape the two relational resolvers are
    inverse to each other: for a stored author [a], [Author.books]
    returns exactly the stored books that [Book.author] resolves to [a],
    and their ids are [a.bookIds], in that order.  So a book belongs to
    the books of at most one author, and to none when its [authorId] is
    dangling. *)
Theorem Author_books_Book_author_agree (d : Store) (a : Author.t) :
  store_ok d → a ∈ authors d →
  ∃ bs : list Book.t,
    Author_books (Some a) d = (Returned bs, d) ∧
    Book.id <$> bs = Author.bookIds a ∧
    ∀ b, b ∈ bs ↔
         b ∈ books d ∧ Book_author (Some b) d = (Returned (Some a), d).
Proof.
  intros (Hnd & Hseq & Hres & Hlink) Ha.
  unfold bookIds_resolve in Hres. rewrite Forall_forall in Hres.
  unfold links_agree in Hlink. rewrite Forall_forall in Hlink.
  pose proof (Hlink a Ha) as Hl. rewrite Forall_forall in Hl.
  eexists. split; [apply Author_books_eq|]. split; [by apply Hres|].
  intros b. rewrite list_elem_of_filter, Book_author_eq. split.
  - intros [Hin Hb]. split; [done|].
    apply (Hl b Hb) in Hin. rewrite Hin.
    destruct (find_by_id (authors d) a Hnd Ha) as [i ->]. done.
  - intros [Hb Hfind]. split; [|done]. apply (Hl b Hb).
    destruct (list_find _ _) as [[i a1]|] eqn:Hf; [|done].
    apply list_find_Some in Hf as (_ & Hid & _). cbn in Hfind. congruence.
Qed.

Lemma witness_X5_on_seed :
  ∃ bs : list Book.t,
    Author_books (Some (Author.mk "1" "Chirag Goel" ["101"; "102"])) data
      = (Returned bs, data) ∧
    Book.id <$> bs = ["101"; "102"] ∧
    ∀ b, b ∈ bs ↔
         b ∈ books data ∧
         Book_author (Some b) data
           = (Returned (Some (Author.mk "1" "Chirag Goel" ["101"; "102"])), data).
Proof.
  apply (Author_books_Book_author_agree data
           (Author.mk "1" "Chirag Goel" ["101"; "102"])).
  - apply (bool_decide_unpack _). vm_compute. exact I.
  - apply list_elem_of_here.
Defined.

Lemma list_find_alter_found {A} (P : A → Prop) `{!∀ x, Decision (P x)}
    (f : A → A) (l : list A) (i : nat) (x : A) :
  list_find P l = Some (i, x) → P (f x) →
  list_find P (alter f i l) = Some (i, f x).
Proof.
  intros (Hi & HP & Hfirst)%list_find_Some HPf. apply list_find_Some.
  split_and!; [by rewrite list_lookup_alter_eq, Hi|done|].
  intros j y Hj Hlt. rewrite list_lookup_alter_ne in Hj by lia. by eapply Hfirst.
Qed.

(** X6.  In any store and for any arguments, resolving the author of the
    Book that [addBook] has just returned gives what the same lookup gave
    before the call, with the new id pushed onto its [bookIds]: absent
    stays absent, and a found author is the same one, now listing the new
    Book last. *)
Theorem Book_author_after_addBook (args : Args.t) (d : Store) :
  ∃ (newBook : Book.t) (d' : Store) (before : option Author.t),
    Mutation_addBook (Some args) d = (Returned newBook, d') ∧
    Book_author (Some newBook) d = (Returned before, d) ∧
    Book_author (Some newBook) d'
      = (Returned (Author.push_bookId (Book.id newBook) <$> before), d').
Proof.
  eexists _, _, _. split; [apply Mutation_addBook_eq|].
  split; [apply Book_author_eq|].
  rewrite Book_author_eq. cbn [authors Book.authorId Book.id newBook_of].
  destruct (list_find _ (authors d)) as [[i a0]|] eqn:Hfind.
  - erewrite list_find_alter_found; [done|exact Hfind|].
    by apply list_find_Some in Hfind as (_ & Hid & _).
  - by rewrite Hfind.
Qed.

(** X7.  In a store of the seed's shape, an [addBook] call changes what
    [Author.books] returns for one author only: for the stored author
    whose id is the call's [authorId], the object (with the id pushed) now
    resolves to the former books followed by the new Book; every other
    stored author is still in the store as it was and resolves to the same
    books as before. *)
Theorem Author_books_after_addBook (args : Args.t) (d : Store) (a : Author.t) :
  store_ok d → a ∈ authors d →
  ∃ (newBook : Book.t) (d' : Store) (old : list Book.t),
    Mutation_addBook (Some args) d = (Returned newBook, d') ∧
    Author_books (Some a) d = (Returned old, d) ∧
    if bool_decide (Author.id a = Args.authorId args)
    then Author.push_bookId (Book.id newBook) a ∈ authors d' ∧
         Author_books (Some (Author.push_bookId (Book.id newBook) a)) d'
           = (Returned (old ++ [newBook]), d')
    else a ∈ authors d' ∧
         Author_books (Some a) d' = (Returned old, d').
Proof.
  intros Hok Ha.
  destruct (store_ok_fresh d Hok) as [Hfresh HfreshA].
  destruct Hok as (Hnd & _).
  eexists _, _, _. split; [apply Mutation_addBook_eq|].
  split; [apply Author_books_eq|].
  rewrite !Author_books_eq. cbn [books authors Book.id newBook_of].
  rewrite !filter_app.
  set (n := toString (length (books d) + 101)) in *.
  case_bool_decide as Hid.
  - destruct (find_by_id (authors d) a Hnd Ha) as [i Hfind].
    rewrite Hid in Hfind. rewrite Hfind.
    pose proof Hfind as (Hi & _ & _)%list_find_Some. split.
    + eapply list_elem_of_lookup_2. by rewrite list_lookup_alter_eq, Hi.
    + do 2 f_equal. f_equal.
      * apply filter_ext_in. intros b Hb. cbn.
        rewrite elem_of_app, list_elem_of_singleton.
        pose proof (Hfresh b Hb). tauto.
      * rewrite filter_cons_True, filter_nil; [done|].
        cbn. apply elem_of_app. right. by left.
  - rewrite filter_cons_False, filter_nil, app_nil_r by by apply HfreshA.
    split; [|done].
    destruct (list_find _ (authors d)) as [[i a0]|] eqn:Hfind; [|done].
    apply list_find_Some in Hfind as (Hi & Hid0 & _).
    apply list_elem_of_lookup in Ha as [j Hj].
    eapply (list_elem_of_lookup_2 _ j).
    rewrite list_lookup_alter_ne; [done|]. intros <-. congruence.
Qed.

Lemma witness_X7_on_seed :
  ∃ (newBook : Book.t) (d' : Store) (old : list Book.t),
    Mutation_addBook (Some (Args.mk "New Book" (Some 2025%Z) "1")) data
      = (Returned newBook, d') ∧
    Author_books (Some (Author.mk "1" "Chirag Goel" ["101"; "102"])) data
      = (Returned old, data) ∧
    if bool_decide (Author.id (Author.mk "1" "Chirag Goel" ["101"; "102"])
                    = Args.authorId (Args.mk "New Book" (Some 2025%Z) "1"))
    then Author.push_bookId (Book.id newBook)
           (Author.mk "1" "Chirag Goel" ["101"; "102"]) ∈ authors d' ∧
         Author_books
           (Some (Author.push_bookId (Book.id newBook)
                    (Author.mk "1" "Chirag Goel" ["101"; "102"]))) d'
           = (Returned (old ++ [newBook]), d')
    else Author.mk "1" "Chirag Goel" ["101"; "102"] ∈ authors d' ∧
         Author_books (Some (Author.mk "1" "Chirag Goel" ["101"; "102"])) d'
           = (Returned old, d').
Proof.
  apply (Author_books_after_addBook
           (Args.mk "New Book" (Some 2025%Z) "1") data
           (Author.mk "1" "Chirag Goel" ["101"; "102"])).
  - apply (bool_decide_unpack _). vm_compute. exact I.
  - apply list_elem_of_here.
Defined.

(** X8.  [Author.books] looks at nothing of its parent but which ids
    [bookIds] contains: two parents whose [bookIds] hold the same ids, in
    whatever order and however often, with whatever [id] and [name],
    resolve to the same books in every store. *)
Theorem Author_books_bookIds_set (a a' : Author.t) (d : Store) :
  (∀ x, x ∈ Author.bookIds a ↔ x ∈ Author.bookIds a') →
  Author_books (Some a) d = Author_books (Some a') d.
Proof.
  intros Hsame. rewrite !Author_books_eq. do 2 f_equal.
  apply filter_ext_in. intros b _. apply Hsame.
Qed.

Lemma witness_X8_reordered :
  Author_books (Some (Author.mk "1" "Chirag Goel" ["101"; "102"])) data =
  Author_books (Some (Author.mk "7" "Somebody" ["102"; "101"; "102"])) data.
Proof.
  apply (Author_books_bookIds_set
           (Author.mk "1" "Chirag Goel" ["101"; "102"])
           (Author.mk "7" "Somebody" ["102"; "101"; "102"]) data).
  intros x. cbn. rewrite !elem_of_cons. tauto.
Defined.

(** X9.  The generated id is not checked against the ids in use: in a
    store where some book already carries the text of the book count plus
    101, [addBook] creates a second book with that id. *)
Theorem addBook_reuses_taken_id (args : Args.t) (d : Store) :
  (∃ b, b ∈ books d ∧ Book.id b = toString (length (books d) + 101)) →
  ∃ (newBook : Book.t) (d' : Store) (i j : nat) (b : Book.t),
    Mutation_addBook (Some args) d = (Returned newBook, d') ∧
    i < j ∧
    books d' !! i = Some b ∧
    books d' !! j = Some newBook ∧
    Book.id b = Book.id newBook ∧
    ¬ NoDup (Book.id <$> books d').
Proof.
  intros (b & [i Hi]%list_elem_of_lookup & Hid).
  pose proof (lookup_lt_Some _ _ _ Hi) as Hlt.
  eexists _, _, i, (length (books d)), b.
  split; [apply Mutation_addBook_eq|]. cbn [books].
  assert ((books d ++ [newBook_of d args]) !! i = Some b) as Hi'
    by by apply lookup_app_l_Some.
  assert ((books d ++ [newBook_of d args]) !! length (books d)
          = Some (newBook_of d args)) as Hj
    by by rewrite lookup_app_r, Nat.sub_diag.
  split_and!; try done.
  intros Hnd.
  assert (i = length (books d)); [|lia].
  eapply NoDup_lookup; [exact Hnd| |]; rewrite list_lookup_fmap.
  - by rewrite Hi'.
  - rewrite Hj. cbn. by rewrite Hid.
Qed.

Lemma witness_X9_taken_id :
  ∃ (newBook : Book.t) (d' : Store) (i j : nat) (b : Book.t),
    Mutation_addBook (Some (Args.mk "Second" None "1"))
      (mkStore [] [Book.mk "102" "First" None "1"]) = (Returned newBook, d') ∧
    i < j ∧
    books d' !! i = Some b ∧
    books d' !! j = Some newBook ∧
    Book.id b = Book.id newBook ∧
    ¬ NoDup (Book.id <$> books d').
Proof.
  apply (addBook_reuses_taken_id (Args.mk "Second" None "1")
           (mkStore [] [Book.mk "102" "First" None "1"])).
  exists (Book.mk "102" "First" None "1"). split; [apply list_elem_of_here|].
  reflexivity.
Defined.
